(** * scoped_resource (reference implementation of N3830)

    A shallow embedding of [scoped_resource.h]: the variadic class template
    [scoped_resource<DELETER, R...>], the tuple-apply helper of namespace
    [apply_ns], the type selector of namespace [select_first] and the two
    generator functions; and of the demonstration program [hello.cpp].

    Modelling conventions.
    - The resource tuple [std::tuple<R...>] is a list of values of a value
      universe [V]; its arity is the length of the list.
    - A member function is a computation over the object's fields and the
      log of disposer calls performed so far.  Calling the disposer is the
      only effect the class has on the outside world; it is recorded as a
      [Call] carrying the callee and its positional arguments.  What the
      disposer does with them is the business of its author.
    - A use the compiler rejects (for instance [std::get<n>] on a tuple
      with at most [n] elements) has no run-time behaviour: the computation
      yields [None].
    - The class is modelled twice.  The first model is the class under a
      plain disposer: one that returns and leaves the callable and the
      arguments it was handed as they were.  Module [Effects] is the class
      under any disposer: the call may leave by an exception, and, being
      handed the members [m_deleter] and [m_resource] as lvalues, may
      change them.  [Effects] under the plain behaviour is the first model
      (lemma [lifetime_plain]). *)

From Stdlib Require Import String Bool Arith ZArith List Lia.
Import ListNotations.

Set Implicit Arguments.

(** ** Requirements on the template arguments *)

(** [RES] of [make_scoped_resource_checked] is compared with [!=]. *)
Class EqualityComparable (T : Type) := {
  op_eq : T -> T -> bool;
  op_ne : T -> T -> bool;
  op_ne_not_eq : forall a b : T, op_ne a b = negb (op_eq a b)
}.

(** [std::move] leaves its source in a valid state the class does not
    inspect; [moved_from x] is what remains of [x]. *)
Class MoveConstructible (T : Type) := {
  moved_from : T -> T
}.

(** ** [enum class invoke_it] *)

Inductive invoke_it : Set :=
| once
| again.

Definition invoke_it_eq (a b : invoke_it) : bool :=
  match a, b with
  | once, once | again, again => true
  | _, _ => false
  end.

(** ** The object and the call log *)

Section Data.
Variables DELETER V : Type.

(** [std::tuple<R...>] *)
Definition tuple := list V.

Record scoped_resource := ScopedResource {
  m_deleter : DELETER;
  m_resource : tuple;
  m_bExecute : bool
}.

(** One invocation [f(a0, ..., ak)] of a disposer. *)
Record call := Call {
  callee : DELETER;
  actuals : list V
}.

Definition trace := list call.

(** Computations of member functions: they read and write [*this], append
    to the call log, and are undefined where the program is ill-formed. *)
Definition M (A : Type) : Type :=
  scoped_resource -> trace -> option (A * scoped_resource * trace).
End Data.

Arguments ScopedResource {DELETER V} _ _ _.
Arguments Call {DELETER V} _ _.

Section Monad.
Context {DELETER V : Type}.
Local Abbreviation M := (M DELETER V).

Definition ret {A} (a : A) : M A :=
  fun self log => Some (a, self, log).

Definition bind {A B} (m : M A) (k : A -> M B) : M B :=
  fun self log =>
    match m self log with
    | Some (a, self', log') => k a self' log'
    | None => None
    end.

Definition ill_formed {A} : M A :=
  fun _ _ => None.

Definition this : M (scoped_resource DELETER V) :=
  fun self log => Some (self, self, log).

Definition assign_bExecute (b : bool) : M unit :=
  fun self log =>
    Some (tt, ScopedResource (m_deleter self) (m_resource self) b, log).

(** [m_resource = t]: tuple assignment needs both sides of one arity. *)
Definition assign_resource (t : tuple V) : M unit :=
  fun self log =>
    if length t =? length (m_resource self)
    then Some (tt, ScopedResource (m_deleter self) t (m_bExecute self), log)
    else None.

(** [f(a...)]: the function-call expression on a plain disposer, which
    returns and leaves [f] and [a...] alone; [Effects.call_function] is the
    call of any disposer. *)
Definition call_function (f : DELETER) (a : list V) : M unit :=
  fun self log => Some (tt, self, log ++ [Call f a]).

(** [std::get<n>(t)], rejected at compile time unless [n < tuple_size]. *)
Definition std_get {E} (n : nat) (t : list E) : M E :=
  match nth_error t n with
  | Some x => ret x
  | None => @ill_formed E
  end.
End Monad.

Declare Scope method_scope.
Delimit Scope method_scope with method.
Notation "x <- m ;; k" := (bind m (fun x => k))
  (at level 61, m at next level, right associativity) : method_scope.
Notation "m ;; k" := (bind m (fun _ => k))
  (at level 61, right associativity) : method_scope.
Open Scope method_scope.

(** ** [namespace apply_ns]: call a function through a tuple *)

Module apply_ns.
Section Apply.
Context {DELETER V : Type}.

(** [Apply<N>::apply(f, t, a...)]:
    [Apply<N>] prepends [std::get<N-1>(t)] to the arguments gathered so
    far and continues with [Apply<N-1>]; [Apply<0>] performs [f(a...)]. *)
Fixpoint Apply (N : nat) (f : DELETER) (t : tuple V) (a : list V)
  : M DELETER V unit :=
  match N with
  | 0 => call_function f a
  | S N' => x <- std_get N' t ;; Apply N' f t (x :: a)
  end.

(** [apply(f, t)] starts at [std::tuple_size<T>::value] with no
    arguments. *)
Definition apply (f : DELETER) (t : tuple V) : M DELETER V unit :=
  Apply (length t) f t [].
End Apply.
End apply_ns.

(** ** [namespace select_first] *)

Module select_first.
Section Types.
Variable Ty : Type.
(** the type [void] *)
Variable void : Ty.

(** [first_type_or_void<F, L...>::type] is [F];
    [first_type_or_void<>::type] is [void]. *)
Definition first_type_or_void (L : list Ty) : Ty :=
  match L with
  | F :: _ => F
  | [] => void
  end.

(** [only_one<F>::type] is [F]; no other instance has a member [type]. *)
Definition only_one (L : list Ty) : option Ty :=
  match L with
  | [F] => Some F
  | _ => None
  end.
End Types.
End select_first.

(** ** [class scoped_resource] *)

Section Class.
Context {DELETER V : Type}.
Context {MoveD : MoveConstructible DELETER} {MoveV : MoveConstructible V}.
Local Abbreviation M := (M DELETER V).
Local Abbreviation scoped_resource := (scoped_resource DELETER V).

(** [std::make_tuple(r...)] *)
Definition make_tuple (r : list V) : tuple V := r.

(** [std::move(resource...)]: the pack is expanded inside the call, and
    [std::move] takes exactly one argument. *)
Definition std_move (resource : list V) : option V :=
  match resource with
  | [x] => Some x
  | _ => None
  end.

(** [std::tuple_cat(t, u)] for tuples over two element universes. *)
Definition tuple_cat {A B} (t : list A) (u : list B) : list (A + B) :=
  map inl t ++ map inr u.

(** [std::tuple<bool>{}]: one value-initialised [bool]. *)
Definition value_initialized_tuple_bool : list bool := [false].

(** [scoped_resource(scoped_resource &&other)]: the new object, and
    [other] as it is left behind. *)
Definition move_constructor (other : scoped_resource)
  : scoped_resource * scoped_resource :=
  (ScopedResource (m_deleter other) (m_resource other) (m_bExecute other),
   ScopedResource (moved_from (m_deleter other))
                  (map moved_from (m_resource other))
                  false).

(** [scoped_resource(DELETER&& deleter, R&&... resource, bool bShouldRun)] *)
Definition constructor_rvalue (deleter : DELETER) (resource : list V)
    (bShouldRun : bool) : option scoped_resource :=
  match std_move resource with
  | Some x => Some (ScopedResource deleter (make_tuple [x]) bShouldRun)
  | None => None
  end.

(** [scoped_resource(const DELETER& deleter, const R&... resource,
                     bool bShouldRun)] *)
Definition constructor (deleter : DELETER) (resource : list V)
    (bShouldRun : bool) : scoped_resource :=
  ScopedResource deleter (make_tuple resource) bShouldRun.

(** [invoke(strategy)] *)
Definition invoke (strategy : invoke_it) : M unit :=
  self <- this ;;
  (if m_bExecute self
   then apply_ns.apply (m_deleter self) (m_resource self)
   else ret tt) ;;
  assign_bExecute (invoke_it_eq strategy again).

(** [~scoped_resource()] *)
Definition destructor : M unit :=
  invoke once.

(** [release()] *)
Definition release : M (V + bool) :=
  assign_bExecute false ;;
  self <- this ;;
  std_get 0 (tuple_cat (m_resource self) value_initialized_tuple_bool).

(** [release_all()] *)
Definition release_all : M (tuple V) :=
  assign_bExecute false ;;
  self <- this ;;
  ret (m_resource self).

(** [reset(resource...)] *)
Definition reset (resource : list V) : M unit :=
  invoke again ;;
  match std_move resource with
  | Some x => assign_resource (make_tuple [x])
  | None => ill_formed
  end.

(** [operator()(how)] *)
Definition function_call (how : invoke_it) : M unit :=
  invoke how.

(** [get<n>()], const and non-const *)
Definition get (n : nat) : M V :=
  self <- this ;;
  std_get n (m_resource self).

(** [operator first_type_or_void<R...>::type() const] *)
Definition conversion : M V :=
  self <- this ;;
  std_get 0 (m_resource self).

(** [operator->()], const and non-const *)
Definition arrow : M V :=
  self <- this ;;
  std_get 0 (m_resource self).

(** [get_deleter()], const and non-const *)
Definition get_deleter : M DELETER :=
  self <- this ;;
  ret (m_deleter self).

(** *** Generator functions *)

(** [make_scoped_resource(t, r...)] *)
Definition make_scoped_resource (t : DELETER) (r : list V)
  : scoped_resource :=
  constructor t r true.

(** [make_scoped_resource_checked(t, r, invalid)] *)
Definition make_scoped_resource_checked {EqV : EqualityComparable V}
    (t : DELETER) (r invalid : V) : scoped_resource :=
  constructor t [r] (op_ne r invalid).
End Class.

(** ** The owner's view of one instance *)

Section Lifetime.
Context {DELETER V : Type}.
Context {MoveD : MoveConstructible DELETER} {MoveV : MoveConstructible V}.
Local Abbreviation M := (M DELETER V).

(** What the owner of an instance can do with it between its construction
    and the end of its scope.  Writing through a reference handed out by
    [get] or [get_deleter] is an action on the referenced cell, not a member
    function, and is not listed. *)
Inductive operation : Type :=
| Invoke (strategy : invoke_it)        (* x.invoke(strategy) *)
| FunctionCall (how : invoke_it)       (* x(how) *)
| Release                              (* x.release() *)
| ReleaseAll                           (* x.release_all() *)
| Reset (resource : list V)            (* x.reset(resource...) *)
| Get (n : nat)                        (* x.get<n>() *)
| Conversion                           (* T(x) *)
| Arrow                                (* x.operator->() *)
| GetDeleter                           (* x.get_deleter() *)
| MoveOut.                             (* scoped_resource y(std::move(x)) *)

(** The instance seen as the source of a move construction. *)
Definition moved_out : M unit :=
  fun self log => Some (tt, snd (move_constructor self), log).

Definition discard {A} (m : M A) : M unit :=
  m ;; ret tt.

Definition perform (o : operation) : M unit :=
  match o with
  | Invoke strategy => invoke strategy
  | FunctionCall how => function_call how
  | Release => discard release
  | ReleaseAll => discard release_all
  | Reset resource => reset resource
  | Get n => discard (get n)
  | Conversion => discard conversion
  | Arrow => discard arrow
  | GetDeleter => discard get_deleter
  | MoveOut => moved_out
  end.

Fixpoint perform_all (os : list operation) : M unit :=
  match os with
  | [] => ret tt
  | o :: os' => perform o ;; perform_all os'
  end.

(** The operations of the owner, then the end of the scope. *)
Definition lifetime (os : list operation) : M unit :=
  perform_all os ;; destructor.

(** An operation the compiler accepts on a binding of [k] resources. *)
Definition well_formed (k : nat) (o : operation) : bool :=
  match o with
  | Reset resource => (k =? 1) && (length resource =? 1)
  | Get n => n <? k
  | Conversion | Arrow => 0 <? k
  | _ => true
  end.

(** [fire(again)] in either spelling. *)
Definition fires_again (o : operation) : bool :=
  match o with
  | Invoke again | FunctionCall again => true
  | _ => false
  end.

Definition is_reset (o : operation) : bool :=
  match o with
  | Reset _ => true
  | _ => false
  end.

(** [release], [release_all], or being moved from. *)
Definition gives_up (o : operation) : bool :=
  match o with
  | Release | ReleaseAll | MoveOut => true
  | _ => false
  end.

(** An explicit fire, with either strategy and in either spelling. *)
Definition fires (o : operation) : bool :=
  match o with
  | Invoke _ | FunctionCall _ => true
  | _ => false
  end.

Definition never_again_nor_reset (o : operation) : bool :=
  negb (fires_again o) && negb (is_reset o).

Definition keeps_ownership (o : operation) : bool :=
  negb (gives_up o).

(** A member function that, whenever it returns, leaves the armed flag, the
    disposer, the resource tuple and the call log as it found them. *)
Definition preserves_state {A} (m : M A) : Prop :=
  forall self log a self' log',
    m self log = Some (a, self', log') -> self' = self /\ log' = log.

(** The calls logged by a computation started on an empty log. *)
Definition calls_of (m : M unit) (self : scoped_resource DELETER V)
  : option (trace DELETER V) :=
  match m self [] with
  | Some (_, _, log) => Some log
  | None => None
  end.

(** The armed flag a computation leaves behind. *)
Definition armed_after (m : M unit) (self : scoped_resource DELETER V)
  : option bool :=
  match m self [] with
  | Some (_, self', _) => Some (m_bExecute self')
  | None => None
  end.

(** The log after a firing attempt on [self]. *)
Definition fired (self : scoped_resource DELETER V) (log : trace DELETER V)
  : trace DELETER V :=
  if m_bExecute self
  then log ++ [Call (m_deleter self) (m_resource self)]
  else log.

(** [self] with its armed flag overwritten. *)
Definition with_bExecute (b : bool) (self : scoped_resource DELETER V)
  : scoped_resource DELETER V :=
  ScopedResource (m_deleter self) (m_resource self) b.
End Lifetime.

(** ** A concrete instantiation, as in the demonstration program *)

Module Demo.
(** Plain values: [int], [std::string], [bool]. *)
Inductive value : Type :=
| VInt (n : Z)
| VStr (s : string)
| VBool (b : bool).

Inductive type : Type :=
| TInt
| TStr
| TBool
| TVoid.

Definition type_of (v : value) : type :=
  match v with
  | VInt _ => TInt
  | VStr _ => TStr
  | VBool _ => TBool
  end.

Definition value_eq (a b : value) : bool :=
  match a, b with
  | VInt x, VInt y => Z.eqb x y
  | VStr x, VStr y => String.eqb x y
  | VBool x, VBool y => Bool.eqb x y
  | _, _ => false
  end.

#[export] Instance value_EqualityComparable : EqualityComparable value := {
  op_eq := value_eq;
  op_ne := fun a b => negb (value_eq a b);
  op_ne_not_eq := fun _ _ => eq_refl
}.

(** A moved-from [std::string] is left empty; scalars are copied. *)
#[export] Instance value_MoveConstructible : MoveConstructible value := {
  moved_from := fun v =>
    match v with
    | VStr _ => VStr EmptyString
    | _ => v
    end
}.

(** Disposers are named functions; moving a function pointer copies it. *)
Definition deleter := string.

#[export] Instance deleter_MoveConstructible : MoveConstructible deleter := {
  moved_from := fun d => d
}.

(** A single file descriptor guarded by [close]. *)
Definition fd_guard (fd : Z) (armed : bool) : scoped_resource deleter value :=
  constructor "close"%string [VInt fd] armed.

(** The two-argument binding of [s2()] in the demonstration program. *)
Definition cs2_guard : scoped_resource deleter value :=
  make_scoped_resource "cs2"%string [VInt 7; VStr "bye"].

(** A pure scope-exit action. *)
Definition done_guard : scoped_resource deleter value :=
  make_scoped_resource "done"%string [].

End Demo.

(** ** References into the resource tuple *)

(** An lvalue designating one cell of [m_resource]: what the non-const
    [get<n>()] returns by reference, and what [operator&()] points to. *)
Record cell : Set := Cell {
  slot : nat
}.

Section References.
Context {DELETER V : Type}.
Local Abbreviation M := (M DELETER V).

(** [get<n>()], non-const: [return std::get<n>(m_resource)] as [auto &]. *)
Definition get_reference (n : nat) : M cell :=
  self <- this ;;
  _ <- std_get n (m_resource self) ;;
  ret (Cell n).

(** [operator&()]: [return &std::get<0>(m_resource)]. *)
Definition address_of : M cell :=
  self <- this ;;
  _ <- std_get 0 (m_resource self) ;;
  ret (Cell 0).

(** [ref = v], or [*ptr = v]: assignment through a reference or pointer to
    a cell of the tuple. *)
Definition store (p : cell) (v : V) : M unit :=
  fun self log =>
    match nth_error (m_resource self) (slot p) with
    | Some _ =>
        Some (tt,
              ScopedResource (m_deleter self)
                (firstn (slot p) (m_resource self)
                 ++ v :: skipn (S (slot p)) (m_resource self))
                (m_bExecute self),
              log)
    | None => None
    end.

(** The end of a scope holding two instances: [a] is destroyed, then [b]. *)
Definition destroy_both (a b : scoped_resource DELETER V)
    (log : trace DELETER V) : option (trace DELETER V) :=
  match destructor a log with
  | Some (_, _, log') =>
      match destructor b log' with
      | Some (_, _, log'') => Some log''
      | None => None
      end
  | None => None
  end.

Definition is_move_out (o : @operation V) : bool :=
  match o with
  | MoveOut => true
  | _ => false
  end.

Definition stays_in_place (o : @operation V) : bool :=
  negb (is_move_out o).
End References.

(** ** The demonstration program [hello.cpp] *)

Module Hello.
Import Demo.

(** The character ['\n']. *)
Definition newline : string :=
  String (Ascii.ascii_of_nat 10) EmptyString.

(** What [<<] sends to [std::cout]. *)
Inductive token : Set :=
| Text (s : string)
| Number (n : Z)
| Endl.

(** What the program does to the outside world, in order. *)
Inductive event : Set :=
| Cout (t : token)                 (* std::cout << t *)
| Dup (oldfd newfd : Z)            (* dup(oldfd), returning newfd *)
| Write (fd : Z) (bytes : string)  (* write(fd, bytes, length) *)
| Close (fd : Z).                  (* close(fd) *)

(** The disposers of the program. *)
Inductive closure : Set :=
| s1_lambda (strMessage : string)  (* [strMessage]{ ... } in s1 *)
| cs2_pointer                      (* cs2, decayed to a function pointer *)
| main_lambda.                     (* [&iRC]()->void{ ... } in main *)

(** The events so far, and the local [iRC] of [main], which [main_lambda]
    captures by reference. *)
Record world : Set := World {
  output : list event;
  iRC : Z
}.

Definition emit (es : list event) (w : world) : world :=
  World (output w ++ es) (iRC w).

(** [++iRC] *)
Definition increment (w : world) : world :=
  World (output w) (iRC w + 1).

(** [write(fd, buf, n)] sends the first [n] bytes of [buf]. *)
Definition write (fd : Z) (buf : string) (n : nat) : event :=
  Write fd (substring 0 n buf).

(** [cs2(iFd, strFinal)] *)
Definition cs2 (iFd : Z) (strFinal : string) (w : world) : world :=
  emit [write iFd strFinal (String.length strFinal); Close iFd] w.

(** The body a disposer runs on its arguments; a call with arguments of the
    wrong number or type does not compile. *)
Definition call_closure (f : closure) (a : list value) (w : world)
  : option world :=
  match f, a with
  | s1_lambda strMessage, [] =>
      Some (emit [Cout (Text "strMessage:"); Cout Endl;
                  Cout (Text strMessage); Cout Endl] w)
  | cs2_pointer, [VInt iFd; VStr strFinal] =>
      Some (cs2 iFd strFinal w)
  | main_lambda, [] =>
      Some (emit [Cout (Text "Done with tests, last run: ");
                  Cout (Number (iRC w)); Cout Endl] w)
  | _, _ => None
  end.

Definition run_calls (calls : trace closure value) (w : world)
  : option world :=
  fold_left
    (fun acc c =>
       match acc with
       | Some w' => call_closure (callee c) (actuals c) w'
       | None => None
       end)
    calls (Some w).

(** A guard leaves its scope: its destructor runs, and the calls it makes
    run the disposer's body on the world as it is then. *)
Definition scope_exit (guard : scoped_resource closure value) (w : world)
  : option world :=
  match destructor guard [] with
  | Some (_, _, calls) => run_calls calls w
  | None => None
  end.

(** The implicit conversion of a guard to [int]. *)
Definition as_int (guard : scoped_resource closure value) : option Z :=
  match conversion guard [] with
  | Some (VInt n, _, _) => Some n
  | _ => None
  end.

(** [s1(strMessage)] *)
Definition s1 (strMessage : string) (w : world) : option world :=
  let res := make_scoped_resource (s1_lambda strMessage) [] in
  let w := emit [Cout (Text "Should be first..."); Cout Endl] w in
  scope_exit res w.

(** [s2()]; [dup_result] is what [dup(1)] returns. *)
Definition s2 (dup_result : Z) (w : world) : option world :=
  let strFinalMsg := String.append "Final Message" newline in
  let w := emit [Dup 1 dup_result] w in
  let file :=
    make_scoped_resource cs2_pointer [VInt dup_result; VStr strFinalMsg] in
  match as_int file with
  | Some fd =>
      let w := emit [write fd (String.append "s2 begin" newline) 9] w in
      match as_int file with
      | Some n =>
          let w := emit [Cout (Text "leaving s2 with file == ");
                         Cout (Number n); Cout Endl] w in
          scope_exit file w
      | None => None
      end
  | None => None
  end.

(** [main()]: the return code and everything the program did. *)
Definition main (dup_result : Z) : option (Z * list event) :=
  let w := World [] 0 in
  let doneHere := make_scoped_resource main_lambda [] in
  match s1 "Should be 2nd" w with
  | Some w =>
      let w := increment w in
      match s2 dup_result w with
      | Some w =>
          let w := increment w in
          let vs := ["Test"; "Test 2"; "Test 3"]%string in
          let w :=
            fold_left (fun w' str => emit [Cout (Text str); Cout Endl] w')
                      vs w in
          let w := increment w in
          match scope_exit doneHere w with
          | Some w => Some (0%Z, output w)
          | None => None
          end
      | None => None
      end
  | None => None
  end.
End Hello.

(** ** The class under any disposer *)

Module Effects.

(** How one call of a disposer ends. *)
Record effect (DELETER V : Type) : Type := Effect {
  returns : bool;            (* [false]: the call leaves by an exception *)
  callee_after : DELETER;    (* the callable as the call leaves it *)
  actuals_after : list V     (* the arguments as the call leaves them *)
}.

Arguments Effect {DELETER V} _ _ _.
Arguments returns {DELETER V} _.
Arguments callee_after {DELETER V} _.
Arguments actuals_after {DELETER V} _.

(** How a member function ends: by returning, or by an exception. *)
Inductive completion (A : Type) : Type :=
| Returned (a : A)
| Thrown.

Arguments Returned {A} _.
Arguments Thrown {A}.

Section Disposer.
Context {DELETER V : Type}.
Local Abbreviation scoped_resource := (scoped_resource DELETER V).
Local Abbreviation trace := (trace DELETER V).

(** What a call [f(a...)] does, given the calls made before it. *)
Variable behaviour : trace -> DELETER -> list V -> effect DELETER V.

(** Computations of member functions that may leave by an exception. *)
Definition E (A : Type) : Type :=
  scoped_resource -> trace -> option (completion A * scoped_resource * trace).

Definition ret {A} (a : A) : E A :=
  fun self log => Some (Returned a, self, log).

(** Sequencing: an exception skips what follows. *)
Definition bind {A B} (m : E A) (k : A -> E B) : E B :=
  fun self log =>
    match m self log with
    | Some (Returned a, self', log') => k a self' log'
    | Some (Thrown, self', log') => Some (Thrown, self', log')
    | None => None
    end.

(** A computation that calls no disposer. *)
Definition lift {A} (m : M DELETER V A) : E A :=
  fun self log =>
    match m self log with
    | Some (a, self', log') => Some (Returned a, self', log')
    | None => None
    end.

(** [try { m; } catch (...) { }] *)
Definition caught {A} (m : E A) : E unit :=
  fun self log =>
    match m self log with
    | Some (_, self', log') => Some (Returned tt, self', log')
    | None => None
    end.

(** The cells of [old] as a call leaves them: references cannot change the
    number of cells. *)
Fixpoint overwrite (old new : list V) : list V :=
  match old, new with
  | _ :: old', n :: new' => n :: overwrite old' new'
  | _, _ => old
  end.

(** [f(a...)] where, as in [invoke], [f] is the member [m_deleter] and
    [a...] are the cells of [m_resource], all handed over as lvalues: the
    call is logged, acts on the members themselves, and returns or
    throws. *)
Definition call_function (f : DELETER) (a : list V) : E unit :=
  fun self log =>
    Some (if returns (behaviour log f a) then Returned tt else Thrown,
          ScopedResource (callee_after (behaviour log f a))
                         (overwrite (m_resource self)
                                    (actuals_after (behaviour log f a)))
                         (m_bExecute self),
          log ++ [Call f a]).

(** [Apply<N>::apply(f, t, a...)] *)
Fixpoint Apply (N : nat) (f : DELETER) (t : tuple V) (a : list V) : E unit :=
  match N with
  | 0 => call_function f a
  | S N' => bind (lift (std_get N' t)) (fun x => Apply N' f t (x :: a))
  end.

(** [apply(f, t)] *)
Definition apply (f : DELETER) (t : tuple V) : E unit :=
  Apply (length t) f t [].

(** [invoke(strategy)]: the flag is written after the call, so not at all
    when the call throws. *)
Definition invoke (strategy : invoke_it) : E unit :=
  bind (lift this) (fun self =>
  bind (if m_bExecute self
        then apply (m_deleter self) (m_resource self)
        else ret tt) (fun _ =>
  lift (assign_bExecute (invoke_it_eq strategy again)))).

(** [~scoped_resource()]; an exception leaving it ends the program. *)
Definition destructor : E unit :=
  invoke once.

(** [operator()(how)] *)
Definition function_call (how : invoke_it) : E unit :=
  invoke how.

(** What the compiler requires of [m_resource = t]. *)
Definition requires_arity (t : tuple V) : E unit :=
  fun self log =>
    if length t =? length (m_resource self)
    then Some (Returned tt, self, log)
    else None.

(** [reset(resource...)]; what the compiler checks of the body is checked
    before anything runs. *)
Definition reset (resource : list V) : E unit :=
  match std_move resource with
  | Some x =>
      bind (requires_arity (make_tuple [x])) (fun _ =>
      bind (invoke again) (fun _ =>
      lift (assign_resource (make_tuple [x]))))
  | None => fun _ _ => None
  end.

(** One operation of the owner; only fires and [reset] call the disposer. *)
Definition perform {MoveD : MoveConstructible DELETER}
    {MoveV : MoveConstructible V} (o : operation) : E unit :=
  match o with
  | Invoke strategy => invoke strategy
  | FunctionCall how => function_call how
  | Reset resource => reset resource
  | _ => lift (perform o)
  end.

(** The operations of the owner in order; an exception leaving one of them
    is not caught and skips the rest. *)
Fixpoint perform_all {MoveD : MoveConstructible DELETER}
    {MoveV : MoveConstructible V} (os : list operation) : E unit :=
  match os with
  | [] => ret tt
  | o :: os' => bind (perform o) (fun _ => perform_all os')
  end.

(** The operations of the owner, then the end of the scope, reached
    normally or by the unwinding of an exception: the destructor runs. *)
Definition lifetime {MoveD : MoveConstructible DELETER}
    {MoveV : MoveConstructible V} (os : list operation) : E unit :=
  fun self log =>
    match perform_all os self log with
    | Some (_, self', log') => destructor self' log'
    | None => None
    end.
(** The call an armed [self] makes when it fires. *)
Definition the_call (self : scoped_resource) : call DELETER V :=
  Call (m_deleter self) (m_resource self).

(** Whether that call, made after the calls of [log], returns. *)
Definition call_returns (self : scoped_resource) (log : trace) : bool :=
  returns (behaviour log (m_deleter self) (m_resource self)).

(** [self] as that call leaves its disposer and resources, with the armed
    flag as given. *)
Definition after_call (self : scoped_resource) (log : trace) (armed : bool)
  : scoped_resource :=
  ScopedResource
    (callee_after (behaviour log (m_deleter self) (m_resource self)))
    (overwrite (m_resource self)
       (actuals_after (behaviour log (m_deleter self) (m_resource self))))
    armed.

(** The calls of [n] successive fires with strategy [again] of an armed
    instance, each on what the one before left, and the instance after
    them. *)
Fixpoint again_calls (n : nat) (self : scoped_resource) (log : trace)
  : trace :=
  match n with
  | 0 => []
  | S n' =>
      the_call self
      :: again_calls n' (after_call self log true) (log ++ [the_call self])
  end.

Fixpoint after_calls (n : nat) (self : scoped_resource) (log : trace)
  : scoped_resource :=
  match n with
  | 0 => self
  | S n' => after_calls n' (after_call self log true) (log ++ [the_call self])
  end.

(** Disposers that never throw; that leave the callable as it was; that
    leave their arguments as they were. *)
Definition always_returns : Prop :=
  forall h f a, returns (behaviour h f a) = true.

Definition leaves_callee : Prop :=
  forall h f a, callee_after (behaviour h f a) = f.

Definition leaves_actuals : Prop :=
  forall h f a, actuals_after (behaviour h f a) = a.
End Disposer.

(** The plain disposer: it returns and changes nothing. *)
Definition plain {DELETER V : Type} (_ : trace DELETER V) (f : DELETER)
    (a : list V) : effect DELETER V :=
  Effect true f a.

(** A disposer that always throws, changing nothing. *)
Definition throwing {DELETER V : Type} (_ : trace DELETER V) (f : DELETER)
    (a : list V) : effect DELETER V :=
  Effect false f a.

(** [void bump(int &n) { ++n; }], as the disposer of a one-[int] binding. *)
Definition bump (_ : trace Demo.deleter Demo.value) (f : Demo.deleter)
    (a : list Demo.value) : effect Demo.deleter Demo.value :=
  Effect true f
    (map (fun v => match v with
                   | Demo.VInt n => Demo.VInt (n + 1)
                   | _ => v
                   end) a).
End Effects.

(** * Properties *)

(** ** Calling through a tuple *)

Section ApplyFacts.
Context {DELETER V : Type}.

Lemma firstn_snoc_nth_error (E : Type) (t : list E) (n : nat) (x : E) :
  nth_error t n = Some x -> firstn (S n) t = firstn n t ++ [x].
Proof.
  revert n; induction t as [|y t IH]; intros [|n] Hn; simpl in Hn;
    try discriminate.
  - injection Hn as ->. reflexivity.
  - cbn [firstn app]. f_equal. now apply IH.
Qed.

(** [Apply<N>] gathers the first [N] elements, in order, in front of the
    arguments it was given. *)
Lemma Apply_gathers (f : DELETER) (t : tuple V) :
  forall (N : nat) (a : list V) self log,
    N <= length t ->
    apply_ns.Apply N f t a self log
    = Some (tt, self, log ++ [Call f (firstn N t ++ a)]).
Proof.
  induction N as [|N IH]; intros a self log HN.
  - reflexivity.
  - cbn [apply_ns.Apply]. unfold bind, std_get.
    destruct (nth_error t N) as [x|] eqn:Hx.
    + unfold ret. rewrite IH by lia.
      rewrite (firstn_snoc_nth_error _ _ Hx), <- app_assoc. reflexivity.
    + apply nth_error_None in Hx. lia.
Qed.

Lemma apply_calls (f : DELETER) (t : tuple V) self log :
  apply_ns.apply f t self log = Some (tt, self, log ++ [Call f t]).
Proof.
  unfold apply_ns.apply. rewrite Apply_gathers by lia.
  now rewrite firstn_all, app_nil_r.
Qed.
End ApplyFacts.

(** ** Equations of the member functions *)

Section MethodFacts.
Context {DELETER V : Type}.
Context {MoveD : MoveConstructible DELETER} {MoveV : MoveConstructible V}.
Implicit Types (self : scoped_resource DELETER V) (log : trace DELETER V).

Lemma invoke_eq strategy self log :
  invoke strategy self log
  = Some (tt, with_bExecute (invoke_it_eq strategy again) self,
          fired self log).
Proof.
  unfold invoke, bind, this, fired.
  destruct (m_bExecute self).
  - rewrite apply_calls. reflexivity.
  - reflexivity.
Qed.

Lemma destructor_eq self log :
  destructor self log = Some (tt, with_bExecute false self, fired self log).
Proof. apply invoke_eq. Qed.

Lemma release_eq self log :
  release self log
  = Some (match m_resource self with
          | r0 :: _ => inl r0
          | [] => inr false
          end, with_bExecute false self, log).
Proof.
  destruct self as [d [|r0 t] b]; reflexivity.
Qed.

Lemma release_all_eq self log :
  release_all self log
  = Some (m_resource self, with_bExecute false self, log).
Proof. reflexivity. Qed.

Lemma with_bExecute_same self :
  with_bExecute (m_bExecute self) self = self.
Proof. now destruct self. Qed.

Lemma get_eq n self log :
  get n self log
  = match nth_error (m_resource self) n with
    | Some v => Some (v, self, log)
    | None => None
    end.
Proof.
  unfold get, bind, this, std_get.
  destruct (nth_error (m_resource self) n); reflexivity.
Qed.

Lemma conversion_eq self log :
  conversion self log
  = match m_resource self with
    | v :: _ => Some (v, self, log)
    | [] => None
    end.
Proof. destruct self as [d [|v t] b]; reflexivity. Qed.

Lemma arrow_eq self log :
  arrow self log = conversion self log.
Proof. reflexivity. Qed.

Lemma get_deleter_eq self log :
  get_deleter self log = Some (m_deleter self, self, log).
Proof. reflexivity. Qed.

Lemma reset_eq (r' : V) self log :
  length (m_resource self) = 1 ->
  reset [r'] self log
  = Some (tt, ScopedResource (m_deleter self) [r'] true, fired self log).
Proof.
  intros Hk. unfold reset, bind. rewrite invoke_eq. cbn [std_move].
  unfold assign_resource, make_tuple, with_bExecute. cbn.
  rewrite Hk. reflexivity.
Qed.

Lemma discard_eq (A : Type) (m : M DELETER V A) self log :
  discard m self log
  = match m self log with
    | Some (_, self', log') => Some (tt, self', log')
    | None => None
    end.
Proof.
  unfold discard, bind, ret. destruct (m self log) as [[[a s'] l']|]; reflexivity.
Qed.

Lemma fired_disarmed self log :
  m_bExecute self = false -> fired self log = log.
Proof. unfold fired. now intros ->. Qed.

Lemma with_bExecute_disarmed self :
  m_bExecute self = false -> with_bExecute false self = self.
Proof. intros H. rewrite <- H. apply with_bExecute_same. Qed.

(** *** One operation *)

(** An operation that neither fires, rebinds nor gives up ownership is a
    pure read. *)
Lemma perform_read o self log :
  well_formed (length (m_resource self)) o = true ->
  fires o = false -> is_reset o = false -> gives_up o = false ->
  perform o self log = Some (tt, self, log).
Proof.
  destruct o; cbn [well_formed fires is_reset gives_up perform];
    intros Hwf Hf Hr Hg; try discriminate.
  - rewrite discard_eq, get_eq. apply Nat.ltb_lt in Hwf.
    destruct (nth_error (m_resource self) n) eqn:E; [reflexivity|].
    apply nth_error_None in E. lia.
  - rewrite discard_eq, conversion_eq. apply Nat.ltb_lt in Hwf.
    destruct (m_resource self); [simpl in Hwf; lia | reflexivity].
  - rewrite discard_eq, arrow_eq, conversion_eq. apply Nat.ltb_lt in Hwf.
    destruct (m_resource self); [simpl in Hwf; lia | reflexivity].
  - reflexivity.
Qed.

Lemma perform_fire_once o self log :
  fires o = true -> fires_again o = false ->
  perform o self log = Some (tt, with_bExecute false self, fired self log).
Proof.
  destruct o as [[|]|[|]| | | | | | | |]; cbn [fires fires_again perform];
    intros Hf Ha; try discriminate; apply invoke_eq.
Qed.

Lemma perform_gives_up o self log :
  gives_up o = true ->
  exists self',
    perform o self log = Some (tt, self', log)
    /\ m_bExecute self' = false
    /\ length (m_resource self') = length (m_resource self).
Proof.
  destruct o; cbn [gives_up perform]; intros Hg; try discriminate.
  - exists (with_bExecute false self). now rewrite discard_eq, release_eq.
  - exists (with_bExecute false self). now rewrite discard_eq, release_all_eq.
  - exists (snd (move_constructor self)). repeat split.
    cbn. apply length_map.
Qed.

(** *** Sequences of operations *)

Lemma perform_all_cons o os self log :
  perform_all (o :: os) self log
  = match perform o self log with
    | Some (_, self', log') => perform_all os self' log'
    | None => None
    end.
Proof.
  cbn [perform_all]. unfold bind.
  destruct (perform o self log) as [[[u s'] l']|]; reflexivity.
Qed.

Lemma perform_all_app os1 os2 self log :
  perform_all (os1 ++ os2) self log
  = match perform_all os1 self log with
    | Some (_, self', log') => perform_all os2 self' log'
    | None => None
    end.
Proof.
  revert self log; induction os1 as [|o os1 IH]; intros self log.
  - reflexivity.
  - rewrite <- app_comm_cons, !perform_all_cons.
    destruct (perform o self log) as [[[u s'] l']|]; [apply IH | reflexivity].
Qed.

Lemma lifetime_eq os self log :
  lifetime os self log
  = match perform_all os self log with
    | Some (_, self', log') =>
        Some (tt, with_bExecute false self', fired self' log')
    | None => None
    end.
Proof.
  unfold lifetime, bind.
  destruct (perform_all os self log) as [[[u s'] l']|]; [|reflexivity].
  apply destructor_eq.
Qed.

(** A disarmed instance is left alone by reads and by [fire(once)]. *)
Lemma perform_all_idle os : forall self log,
  m_bExecute self = false ->
  forallb (well_formed (length (m_resource self))) os = true ->
  forallb never_again_nor_reset os = true ->
  forallb keeps_ownership os = true ->
  perform_all os self log = Some (tt, self, log).
Proof.
  induction os as [|o os IH]; intros self log Hb Hwf Hnr Hk; [reflexivity|].
  cbn [forallb] in Hwf, Hnr, Hk.
  apply andb_prop in Hwf as [Hwf Hwfs], Hnr as [Hnr Hnrs], Hk as [Hk Hks].
  unfold never_again_nor_reset in Hnr. apply andb_prop in Hnr as [Ha Hr].
  apply negb_true_iff in Ha, Hr, Hk. rewrite perform_all_cons.
  destruct (fires o) eqn:Hf.
  - rewrite perform_fire_once by assumption.
    rewrite with_bExecute_disarmed, fired_disarmed by assumption. now apply IH.
  - rewrite perform_read by assumption. now apply IH.
Qed.

(** An armed instance fires at its first explicit [fire(once)]. *)
Lemma perform_all_armed os : forall self log,
  m_bExecute self = true ->
  forallb (well_formed (length (m_resource self))) os = true ->
  forallb never_again_nor_reset os = true ->
  forallb keeps_ownership os = true ->
  perform_all os self log
  = Some (tt, with_bExecute (negb (existsb fires os)) self,
          if existsb fires os
          then log ++ [Call (m_deleter self) (m_resource self)]
          else log).
Proof.
  induction os as [|o os IH]; intros self log Hb Hwf Hnr Hk.
  - cbn. now rewrite <- Hb, with_bExecute_same.
  - pose proof Hnr as Hnr0. pose proof Hk as Hk0.
    cbn [forallb] in Hwf, Hnr, Hk.
    apply andb_prop in Hwf as [Hwf Hwfs], Hnr as [Hnr Hnrs], Hk as [Hk Hks].
    unfold never_again_nor_reset in Hnr. apply andb_prop in Hnr as [Ha Hr].
    apply negb_true_iff in Ha, Hr, Hk. rewrite perform_all_cons.
    cbn [existsb]. destruct (fires o) eqn:Hf.
    + rewrite perform_fire_once by assumption. cbn [orb negb].
      rewrite perform_all_idle; try assumption; try reflexivity.
      unfold fired. now rewrite Hb.
    + rewrite perform_read by assumption. cbn [orb]. now apply IH.
Qed.

(** Without [reset] and [fire(again)], disarmed stays disarmed and nothing
    is called. *)
Lemma perform_all_stays_disarmed os : forall self log,
  m_bExecute self = false ->
  forallb (well_formed (length (m_resource self))) os = true ->
  forallb never_again_nor_reset os = true ->
  exists self',
    perform_all os self log = Some (tt, self', log)
    /\ m_bExecute self' = false.
Proof.
  induction os as [|o os IH]; intros self log Hb Hwf Hnr.
  - now exists self.
  - cbn [forallb] in Hwf, Hnr.
    apply andb_prop in Hwf as [Hwf Hwfs], Hnr as [Hnr Hnrs].
    unfold never_again_nor_reset in Hnr. apply andb_prop in Hnr as [Ha Hr].
    apply negb_true_iff in Ha, Hr. rewrite perform_all_cons.
    destruct (gives_up o) eqn:Hg; [|destruct (fires o) eqn:Hf].
    + destruct (perform_gives_up o self log Hg) as (s' & -> & Hb' & Hlen).
      apply IH; [assumption | now rewrite Hlen | assumption].
    + rewrite perform_fire_once by assumption.
      rewrite with_bExecute_disarmed, fired_disarmed by assumption.
      now apply IH.
    + rewrite perform_read by assumption. now apply IH.
Qed.
End MethodFacts.

(** [reset] is accepted for single-resource bindings only: the pack
    [resource...] is handed to the one-argument [std::move]. *)
Lemma reset_arity {DELETER V : Type} (resource : list V)
    (self : scoped_resource DELETER V) (log : trace DELETER V) :
  reset resource self log <> None
  <-> length (m_resource self) = 1 /\ length resource = 1.
Proof.
  unfold reset, bind. rewrite invoke_eq.
  destruct resource as [|x [|y rest]]; cbn [std_move length].
  - split; [intros H; now contradiction H | intros [_ H]; discriminate].
  - unfold assign_resource, make_tuple, with_bExecute.
    cbn [m_resource length].
    destruct (Nat.eqb_spec 1 (length (m_resource self))) as [E|E].
    + split; [intros _; now split | intros _; discriminate].
    + split; [intros H; now contradiction H | intros [H _]; congruence].
  - split; [intros H; now contradiction H | intros [_ H]; discriminate].
Qed.

(** ** The claims *)

Section Claims.
Context {DELETER V : Type}.
Context {MoveD : MoveConstructible DELETER} {MoveV : MoveConstructible V}.
Implicit Types (self x : scoped_resource DELETER V) (log : trace DELETER V).
Implicit Types (d : DELETER) (r : list V) (os : list (@operation V)).

(** C2 (amended). Firing a disarmed instance invokes nothing; afterwards
    the armed flag is false for strategy [once] and true for strategy
    [again].  An instance disarmed by [release], [release_all] or a
    move-out stays disarmed, and nothing is called, under every operation
    other than [reset] and a fire with strategy [again]. *)
Theorem fire_on_disarmed self log :
  m_bExecute self = false ->
  (forall strategy,
     invoke strategy self log
     = Some (tt, with_bExecute (invoke_it_eq strategy again) self, log)
     /\ function_call strategy self log
        = Some (tt, with_bExecute (invoke_it_eq strategy again) self, log))
  /\ invoke once self log = Some (tt, self, log)
  /\ (forall x o,
        gives_up o = true ->
        exists x',
          perform o x log = Some (tt, x', log) /\ m_bExecute x' = false)
  /\ (forall os,
        forallb (well_formed (length (m_resource self))) os = true ->
        forallb never_again_nor_reset os = true ->
        exists self',
          perform_all os self log = Some (tt, self', log)
          /\ m_bExecute self' = false
          /\ lifetime os self log = Some (tt, self', log)).
Proof.
  intros Hb. repeat split.
  - now rewrite invoke_eq, fired_disarmed.
  - unfold function_call. now rewrite invoke_eq, fired_disarmed.
  - rewrite invoke_eq, fired_disarmed by assumption. cbn.
    now rewrite with_bExecute_disarmed.
  - intros x o Hg. destruct (perform_gives_up o x log Hg) as (x' & E & B & _).
    now exists x'.
  - intros os Hwf Hnr.
    destruct (perform_all_stays_disarmed os self log Hb Hwf Hnr)
      as (self' & E & B).
    exists self'. repeat split; try assumption.
    rewrite lifetime_eq, E. now rewrite with_bExecute_disarmed, fired_disarmed.
Qed.

(** C3. The checked factory arms the instance exactly when [r] differs from
    [invalid]: disarmed for [r == invalid], armed for [r != invalid]; at
    scope exit, with nothing done in between, the disposer is called with
    [r] if and only if [r != invalid], and then once. *)
Theorem checked_factory_fires_iff_valid {EqV : EqualityComparable V}
    d (r invalid : V) log :
  m_bExecute (make_scoped_resource_checked d r invalid) = op_ne r invalid
  /\ m_bExecute (make_scoped_resource_checked d r invalid)
     = negb (op_eq r invalid)
  /\ lifetime [] (make_scoped_resource_checked d r invalid) log
     = Some (tt, ScopedResource d [r] false,
             if op_eq r invalid then log else log ++ [Call d [r]])
  /\ (calls_of (lifetime []) (make_scoped_resource_checked d r invalid)
      = Some [Call d [r]]
      <-> op_ne r invalid = true).
Proof.
  assert (E : calls_of (lifetime []) (make_scoped_resource_checked d r invalid)
              = Some (if op_ne r invalid then [Call d [r]] else [])).
  { unfold calls_of. rewrite lifetime_eq. cbn [perform_all]. unfold ret, fired.
    cbn. destruct (op_ne r invalid); reflexivity. }
  split; [reflexivity|]. split; [apply op_ne_not_eq|]. split.
  - rewrite lifetime_eq. cbn [perform_all]. unfold ret, fired, with_bExecute.
    cbn. rewrite op_ne_not_eq. destruct (op_eq r invalid); reflexivity.
  - rewrite E. destruct (op_ne r invalid); split; intros H;
      try reflexivity; discriminate.
Qed.

(** C5. [release] and [release_all] clear the armed flag, call nothing and
    leave disposer and resource tuple as they were; [release] returns the
    0-th resource, or a value-initialised [bool] ([false]) for a
    zero-resource binding; [release_all] returns the whole tuple; the scope
    end after either calls nothing. *)
Theorem release_disarms_without_firing self log :
  release self log
  = Some (match m_resource self with
          | r0 :: _ => inl r0
          | [] => inr false
          end,
          ScopedResource (m_deleter self) (m_resource self) false, log)
  /\ release_all self log
     = Some (m_resource self,
             ScopedResource (m_deleter self) (m_resource self) false, log)
  /\ lifetime [Release] self log
     = Some (tt, ScopedResource (m_deleter self) (m_resource self) false, log)
  /\ lifetime [ReleaseAll] self log
     = Some (tt, ScopedResource (m_deleter self) (m_resource self) false, log).
Proof.
  split; [apply release_eq|]. split; [apply release_all_eq|]. split.
  - rewrite lifetime_eq, perform_all_cons. cbn [perform].
    now rewrite discard_eq, release_eq.
  - rewrite lifetime_eq, perform_all_cons. cbn [perform].
    now rewrite discard_eq, release_all_eq.
Qed.

(** C6. Move construction from an armed [x] hands disposer and resource
    tuple to the new object [y] and leaves [x] disarmed: destroying [x]
    calls nothing, destroying [y] calls the disposer once, on the values
    [x] held. *)
Theorem move_disarms_source x log :
  m_bExecute x = true ->
  fst (move_constructor x) = x
  /\ m_bExecute (snd (move_constructor x)) = false
  /\ destructor (snd (move_constructor x)) log
     = Some (tt, snd (move_constructor x), log)
  /\ destructor (fst (move_constructor x)) log
     = Some (tt, with_bExecute false x,
             log ++ [Call (m_deleter x) (m_resource x)])
  /\ (forall log1,
        destructor (fst (move_constructor x)) log
        = Some (tt, with_bExecute false x, log1) ->
        destructor (snd (move_constructor x)) log1
        = Some (tt, snd (move_constructor x),
                log ++ [Call (m_deleter x) (m_resource x)])).
Proof.
  intros Hb.
  assert (Hy : fst (move_constructor x) = x) by now destruct x.
  assert (Hd : destructor (fst (move_constructor x)) log
               = Some (tt, with_bExecute false x,
                       log ++ [Call (m_deleter x) (m_resource x)])).
  { rewrite Hy, destructor_eq. unfold fired. now rewrite Hb. }
  split; [exact Hy|]. split; [reflexivity|]. split; [|split].
  - now rewrite destructor_eq.
  - exact Hd.
  - intros log1 H1. rewrite Hd in H1. injection H1 as <-.
    now rewrite destructor_eq.
Qed.

(** C7. When an armed instance fires, at destruction or through an
    explicit [invoke], the disposer is called once, with the bound values
    in order as its positional arguments: [k] values give one call of [k]
    arguments, no value gives one call of none.  This is what
    [apply_ns::apply] does for every callable and tuple. *)
Theorem fire_unpacks_in_order self log :
  m_bExecute self = true ->
  (forall strategy,
     invoke strategy self log
     = Some (tt, with_bExecute (invoke_it_eq strategy again) self,
             log ++ [Call (m_deleter self) (m_resource self)]))
  /\ destructor self log
     = Some (tt, with_bExecute false self,
             log ++ [Call (m_deleter self) (m_resource self)])
  /\ (forall (f : DELETER) (t : tuple V) x log',
        apply_ns.apply f t x log' = Some (tt, x, log' ++ [Call f t]))
  /\ (forall (f : DELETER) x log',
        apply_ns.apply f [] x log' = Some (tt, x, log' ++ [Call f []])).
Proof.
  intros Hb. split; [|split; [|split]].
  - intros strategy. rewrite invoke_eq. unfold fired. now rewrite Hb.
  - rewrite destructor_eq. unfold fired. now rewrite Hb.
  - intros. apply apply_calls.
  - intros. apply apply_calls.
Qed.

(** C8 (amended). On a binding of at least one resource the implicit
    conversion returns the 0-th resource value (so [v] for a single-resource
    binding over [v]), its target type is the first type of the pack, and
    the instance is not modified.  On a zero-resource binding the target
    type is [void] and the conversion yields no value. *)
Theorem conversion_yields_first d (v : V) (rest : list V) (b : bool) log :
  conversion (ScopedResource d (v :: rest) b) log
  = Some (v, ScopedResource d (v :: rest) b, log)
  /\ conversion (ScopedResource d [v] b) log
     = Some (v, ScopedResource d [v] b, log)
  /\ (forall (Ty : Type) (void : Ty) (type_of : V -> Ty),
        select_first.first_type_or_void void (map type_of (v :: rest))
        = type_of v
        /\ select_first.first_type_or_void void (map type_of []) = void)
  /\ conversion (ScopedResource d [] b) log = None.
Proof.
  split; [reflexivity|]. split; [reflexivity|]. split; [|reflexivity].
  intros Ty void type_of. split; reflexivity.
Qed.

(** C9. The checked factory stores [r] whatever the comparison with the
    sentinel gives: also when [r == invalid], [get()] returns [r] and
    [release()] returns [r]. *)
Theorem checked_factory_stores_resource {EqV : EqualityComparable V}
    d (r invalid : V) log :
  m_resource (make_scoped_resource_checked d r invalid) = [r]
  /\ get 0 (make_scoped_resource_checked d r invalid) log
     = Some (r, make_scoped_resource_checked d r invalid, log)
  /\ release (make_scoped_resource_checked d r invalid) log
     = Some (inl r, ScopedResource d [r] false, log).
Proof.
  split; [reflexivity|]. split.
  - now rewrite get_eq.
  - now rewrite release_eq.
Qed.

(** C10. [get<i>()], [get_deleter()] and the implicit conversion change
    neither the armed flag, nor the disposer, nor the resource tuple (nor
    do they call anything): the instance is the same before and after. *)
Theorem accessors_preserve_state :
  (forall n, preserves_state (get (DELETER:=DELETER) (V:=V) n))
  /\ preserves_state (get_deleter (DELETER:=DELETER) (V:=V))
  /\ preserves_state (conversion (DELETER:=DELETER) (V:=V))
  /\ (forall self log,
        (forall n,
           get n self log
           = option_map (fun v => (v, self, log))
                        (nth_error (m_resource self) n))
        /\ get_deleter self log = Some (m_deleter self, self, log)
        /\ conversion self log
           = option_map (fun v => (v, self, log))
                        (nth_error (m_resource self) 0)).
Proof.
  split; [|split; [|split]].
  - intros n self log a self' log'. rewrite get_eq.
    destruct (nth_error (m_resource self) n); [|discriminate].
    intros [= _ <- <-]. now split.
  - intros self log a self' log'. rewrite get_deleter_eq.
    intros [= _ <- <-]. now split.
  - intros self log a self' log'. rewrite conversion_eq.
    destruct (m_resource self); [discriminate|].
    intros [= _ <- <-]. now split.
  - intros self log. split; [|split].
    + intros n. rewrite get_eq.
      now destruct (nth_error (m_resource self) n).
    + apply get_deleter_eq.
    + rewrite conversion_eq. now destruct (m_resource self).
Qed.
End Claims.

(** ** The claims on concrete bindings *)

Section Scenarios.
Import Demo.
Open Scope string_scope.
Open Scope Z_scope.


Lemma fire_on_disarmed_witness :
  m_bExecute (fd_guard 3 false) = false
  /\ invoke once (fd_guard 3 false) [] = Some (tt, fd_guard 3 false, []).
Proof.
  split; [reflexivity|].
  exact (proj1 (proj2 (fire_on_disarmed (fd_guard 3 false) [] eq_refl))).
Defined.

(** C2 as stated fails: [invoke(again)] on a disarmed instance calls
    nothing but leaves it armed, also after a [release], so that the scope
    end then calls the disposer. *)
Lemma fire_again_rearms_disarmed :
  m_bExecute (fd_guard 3 false) = false
  /\ calls_of (invoke again) (fd_guard 3 false) = Some []
  /\ armed_after (invoke again) (fd_guard 3 false) = Some true
  /\ armed_after (invoke again) (fd_guard 3 false) <> Some false
  /\ armed_after (perform_all [Release; Invoke again]) (fd_guard 3 true)
     = Some true
  /\ calls_of (lifetime [Release; Invoke again]) (fd_guard 3 true)
     = Some [Call "close" [VInt 3]].
Proof.
  repeat (split; [reflexivity|]).
  split; [discriminate|]. split; reflexivity.
Qed.

(** Moving the two-resource binding: the source keeps an emptied string and
    is disarmed, the target fires on the original values. *)
Lemma move_disarms_source_witness :
  m_bExecute cs2_guard = true
  /\ snd (move_constructor cs2_guard)
     = ScopedResource "cs2" [VInt 7; VStr ""] false
  /\ destructor (snd (move_constructor cs2_guard)) []
     = Some (tt, snd (move_constructor cs2_guard), [])
  /\ destructor (fst (move_constructor cs2_guard)) []
     = Some (tt, with_bExecute false cs2_guard,
             [Call "cs2" [VInt 7; VStr "bye"]]).
Proof.
  split; [reflexivity|]. split; [reflexivity|].
  pose proof (move_disarms_source cs2_guard [] eq_refl) as H.
  exact (conj (proj1 (proj2 (proj2 H))) (proj1 (proj2 (proj2 (proj2 H))))).
Defined.

(** The binding [(7, "bye")] yields exactly the call [cs2(7, "bye")]. *)
Lemma fire_unpacks_in_order_witness :
  m_bExecute cs2_guard = true
  /\ destructor cs2_guard []
     = Some (tt, with_bExecute false cs2_guard,
             [Call "cs2" [VInt 7; VStr "bye"]]).
Proof.
  split; [reflexivity|].
  exact (proj1 (proj2 (fire_unpacks_in_order cs2_guard [] eq_refl))).
Defined.

(** C8 as stated fails on a zero-resource binding: the conversion yields
    no value at all, its target type being [void]. *)
Lemma zero_resource_conversion_yields_nothing :
  m_resource done_guard = []
  /\ conversion done_guard [] = None
  /\ select_first.first_type_or_void TVoid (map type_of (m_resource done_guard))
     = TVoid
  /\ ~ (exists placeholder self' log',
          conversion done_guard [] = Some (placeholder, self', log')).
Proof.
  repeat (split; [reflexivity|]).
  intros (p & s & l & H). discriminate H.
Qed.

(** *** Scenarios of the specification *)

Example scope_exit_only :
  calls_of (lifetime []) done_guard = Some [Call "done" []].
Proof. reflexivity. Qed.

Example sentinel_invalid :
  calls_of (lifetime []) (make_scoped_resource_checked "close" (VInt (-1)) (VInt (-1)))
  = Some [].
Proof. reflexivity. Qed.

Example sentinel_valid :
  calls_of (lifetime []) (make_scoped_resource_checked "close" (VInt 3) (VInt (-1)))
  = Some [Call "close" [VInt 3]].
Proof. reflexivity. Qed.

Example release_of_nothing :
  release done_guard [] = Some (inr false, with_bExecute false done_guard, []).
Proof. reflexivity. Qed.

Example reset_needs_one_resource :
  reset [VInt 1; VStr "x"] cs2_guard [] = None
  /\ reset [] done_guard [] = None.
Proof. split; reflexivity. Qed.
End Scenarios.

(** * Further properties of the code *)

Section Extras.
Context {DELETER V : Type}.
Context {MoveD : MoveConstructible DELETER} {MoveV : MoveConstructible V}.
Implicit Types (self x : scoped_resource DELETER V) (log : trace DELETER V).
Implicit Types (d : DELETER) (r : list V) (os : list (@operation V)).

(** X1. [Apply<N>::apply(f, t, a...)] is accepted exactly when [N] does not
    exceed the size of the tuple; it then performs one call of [f], on the
    first [N] elements of [t] in order followed by [a...], and touches
    nothing else. *)
Theorem Apply_within_bounds (N : nat) (f : DELETER) (t : tuple V)
    (a : list V) x log :
  apply_ns.Apply N f t a x log
  = if N <=? length t
    then Some (tt, x, log ++ [Call f (firstn N t ++ a)])
    else None.
Proof.
  destruct (Nat.leb_spec N (length t)) as [Hle|Hgt].
  - now apply Apply_gathers.
  - destruct N as [|N]; [lia|].
    cbn [apply_ns.Apply]. unfold bind, std_get.
    destruct (nth_error t N) eqn:E; [|reflexivity].
    assert (N < length t) by (apply nth_error_Some; congruence). lia.
Qed.

(** X2. The constructor taking its arguments by rvalue reference is
    accepted for exactly one resource, and then builds the object the
    copying constructor builds. *)
Theorem rvalue_constructor_single_resource d r (bShouldRun : bool) :
  constructor_rvalue d r bShouldRun
  = if length r =? 1
    then Some (constructor d r bShouldRun)
    else None.
Proof. destruct r as [|v [|w r]]; reflexivity. Qed.

(** X4. [release()] followed by [reset(r')] hands the instance a new
    resource without disposing of the old one: over the whole lifetime the
    disposer is called once, on [r']. *)
Theorem release_then_reset_hands_over x (r' : V) log :
  length (m_resource x) = 1 ->
  lifetime [Release; Reset [r']] x log
  = Some (tt, ScopedResource (m_deleter x) [r'] false,
          log ++ [Call (m_deleter x) [r']]).
Proof.
  intros Hk. rewrite lifetime_eq, perform_all_cons. cbn [perform].
  rewrite discard_eq, release_eq, perform_all_cons. cbn [perform].
  rewrite reset_eq by exact Hk. reflexivity.
Qed.

(** X6. Move construction neither loses nor duplicates a pending clean-up:
    the new object takes over the armed flag as it was, and destroying both
    objects, in either order, makes exactly the calls that destroying the
    source alone would have made. *)
Theorem move_conserves_cleanup x log :
  m_bExecute (fst (move_constructor x)) = m_bExecute x
  /\ destroy_both (fst (move_constructor x)) (snd (move_constructor x)) log
     = Some (if m_bExecute x
             then log ++ [Call (m_deleter x) (m_resource x)]
             else log)
  /\ destroy_both (snd (move_constructor x)) (fst (move_constructor x)) log
     = Some (if m_bExecute x
             then log ++ [Call (m_deleter x) (m_resource x)]
             else log).
Proof.
  split; [reflexivity|]. unfold destroy_both. split.
  - rewrite destructor_eq. cbv iota beta. rewrite destructor_eq.
    destruct x as [d r [|]]; reflexivity.
  - rewrite destructor_eq. cbv iota beta. rewrite destructor_eq.
    destruct x as [d r [|]]; reflexivity.
Qed.

(** X9. [reset] re-arms an instance that was moved from: the scope end
    then calls what the move left of the disposer, on the new value. *)
Theorem reset_rearms_moved_from x (r' : V) log :
  length (m_resource x) = 1 ->
  lifetime [MoveOut; Reset [r']] x log
  = Some (tt, ScopedResource (moved_from (m_deleter x)) [r'] false,
          log ++ [Call (moved_from (m_deleter x)) [r']]).
Proof.
  intros Hk. rewrite lifetime_eq, perform_all_cons. cbn [perform].
  unfold moved_out. rewrite perform_all_cons. cbn [perform].
  rewrite reset_eq by (cbn; now rewrite length_map). reflexivity.
Qed.

(** X10. A value stored through the reference the non-const [get<n>()]
    returns replaces the [n]-th resource and nothing else: [get<n>()] reads
    it back, the other resources, the disposer and the armed flag are as
    before, nothing is called, and the disposer later receives the new
    value in position [n].  [operator&] gives the same access to the 0-th
    resource. *)
Theorem store_through_reference x (n : nat) (v : V) log :
  n < length (m_resource x) ->
  (p <- get_reference n ;; store p v) x log
  = Some (tt,
          ScopedResource (m_deleter x)
            (firstn n (m_resource x) ++ v :: skipn (S n) (m_resource x))
            (m_bExecute x),
          log)
  /\ get n
       (ScopedResource (m_deleter x)
          (firstn n (m_resource x) ++ v :: skipn (S n) (m_resource x))
          (m_bExecute x)) log
     = Some (v,
             ScopedResource (m_deleter x)
               (firstn n (m_resource x) ++ v :: skipn (S n) (m_resource x))
               (m_bExecute x),
             log)
  /\ (forall m, m <> n ->
        nth_error (firstn n (m_resource x) ++ v :: skipn (S n) (m_resource x))
                  m
        = nth_error (m_resource x) m)
  /\ (p <- get_reference n ;; store p v ;; destructor) x log
     = Some (tt,
             ScopedResource (m_deleter x)
               (firstn n (m_resource x) ++ v :: skipn (S n) (m_resource x))
               false,
             if m_bExecute x
             then log ++ [Call (m_deleter x)
                            (firstn n (m_resource x)
                             ++ v :: skipn (S n) (m_resource x))]
             else log)
  /\ address_of x log = get_reference 0 x log.
Proof.
  intros Hn.
  assert (Hlen : length (firstn n (m_resource x)) = n)
    by (apply firstn_length_le; lia).
  assert (Hsome : exists old, nth_error (m_resource x) n = Some old).
  { destruct (nth_error (m_resource x) n) eqn:E; [now eexists|].
    apply nth_error_None in E. lia. }
  destruct Hsome as [old Hold].
  assert (Hstore : (p <- get_reference n ;; store p v) x log
    = Some (tt,
            ScopedResource (m_deleter x)
              (firstn n (m_resource x) ++ v :: skipn (S n) (m_resource x))
              (m_bExecute x),
            log)).
  { unfold bind, get_reference, bind, this, std_get, store.
    rewrite Hold. cbn. now rewrite Hold. }
  split; [exact Hstore|]. split; [|split; [|split]].
  - rewrite get_eq. cbn [m_resource].
    rewrite nth_error_app2 by lia. now rewrite Hlen, Nat.sub_diag.
  - intros m Hm. destruct (Nat.lt_ge_cases m n) as [Hlt|Hge].
    + rewrite nth_error_app1 by lia. rewrite nth_error_firstn.
      apply Nat.ltb_lt in Hlt. now rewrite Hlt.
    + rewrite nth_error_app2 by lia. rewrite Hlen.
      destruct (m - n) as [|k] eqn:Ek; [lia|].
      cbn [nth_error]. rewrite nth_error_skipn. f_equal. lia.
  - unfold bind in Hstore |- *.
    destruct (get_reference n x log) as [[[p x1] l1]|]; [|discriminate].
    rewrite Hstore. now rewrite destructor_eq.
  - reflexivity.
Qed.
End Extras.

(** ** The demonstration program *)

Section HelloFacts.
Import Demo Hello.
Open Scope string_scope.
Open Scope Z_scope.

(** X11. In [s1] the guard's lambda runs when the function returns: for
    every message and whatever was printed before, the line of the body
    comes first, then the two lines of the lambda, the second being the
    message captured at construction. *)
Theorem s1_prints_body_first (strMessage : string) (w : world) :
  s1 strMessage w
  = Some (World
            (output w
             ++ [Cout (Text "Should be first..."); Cout Endl;
                 Cout (Text "strMessage:"); Cout Endl;
                 Cout (Text strMessage); Cout Endl])
            (iRC w)).
Proof.
  unfold s1, scope_exit. rewrite destructor_eq. cbn.
  unfold emit. cbn. now rewrite <- app_assoc.
Qed.

(** X12. In [s2], whatever descriptor [dup] returns: the greeting is
    written to it (the guard converting to the descriptor), the descriptor
    is printed, and at the end of the scope [cs2] receives the descriptor
    and the final message, writes the message and closes the descriptor,
    once and as the last thing. *)
Theorem s2_closes_after_final_message (fd : Z) (w : world) :
  s2 fd w
  = Some (World
            (output w
             ++ [Dup 1 fd;
                 Write fd (String.append "s2 begin" newline);
                 Cout (Text "leaving s2 with file == ");
                 Cout (Number fd); Cout Endl;
                 Write fd (String.append "Final Message" newline);
                 Close fd])
            (iRC w)).
Proof.
  unfold s2, as_int. rewrite !conversion_eq. cbn [make_scoped_resource
    constructor make_tuple m_resource].
  unfold scope_exit. rewrite destructor_eq. cbn.
  unfold cs2, emit, write. cbn. now rewrite <- !app_assoc.
Qed.

(** X13. [main] returns 0 and, whatever [dup] returns, does the following
    in this order; [doneHere], constructed first, runs last and reports
    the value [iRC] has then, 3, not the 0 it had at construction. *)
Theorem main_reports_three (fd : Z) :
  main fd
  = Some (0,
          [Cout (Text "Should be first..."); Cout Endl;
           Cout (Text "strMessage:"); Cout Endl;
           Cout (Text "Should be 2nd"); Cout Endl;
           Dup 1 fd;
           Write fd (String.append "s2 begin" newline);
           Cout (Text "leaving s2 with file == ");
           Cout (Number fd); Cout Endl;
           Write fd (String.append "Final Message" newline);
           Close fd;
           Cout (Text "Test"); Cout Endl;
           Cout (Text "Test 2"); Cout Endl;
           Cout (Text "Test 3"); Cout Endl;
           Cout (Text "Done with tests, last run: ");
           Cout (Number 3); Cout Endl]).
Proof.
  vm_compute. reflexivity.
Qed.
End HelloFacts.

(** ** The further properties on concrete bindings *)

Section ExtraScenarios.
Import Demo.
Open Scope string_scope.
Open Scope Z_scope.

(** A descriptor is released and replaced: only the new one is closed. *)
Lemma release_then_reset_hands_over_witness :
  length (m_resource (fd_guard 3 true)) = 1%nat
  /\ lifetime [Release; Reset [VInt 4]] (fd_guard 3 true) []
     = Some (tt, ScopedResource "close" [VInt 4] false,
             [Call "close" [VInt 4]]).
Proof.
  split; [reflexivity|].
  exact (release_then_reset_hands_over (fd_guard 3 true) (VInt 4) [] eq_refl).
Defined.

(** A guard is moved from and then reset: it fires again, on the new
    value. *)
Lemma reset_rearms_moved_from_witness :
  length (m_resource (make_scoped_resource "d" [VStr "A"])) = 1%nat
  /\ lifetime [MoveOut; Reset [VStr "B"]]
              (make_scoped_resource "d" [VStr "A"]) []
     = Some (tt, ScopedResource "d" [VStr "B"] false,
             [Call "d" [VStr "B"]]).
Proof.
  split; [reflexivity|].
  exact (reset_rearms_moved_from (make_scoped_resource "d" [VStr "A"])
           (VStr "B") [] eq_refl).
Defined.

(** The message of the two-resource binding is replaced through
    [get<1>()]: the disposer receives the new message. *)
Lemma store_through_reference_witness :
  (1 < length (m_resource cs2_guard))%nat
  /\ (p <- get_reference 1 ;; store p (VStr "ciao") ;; destructor)
       cs2_guard []
     = Some (tt, ScopedResource "cs2" [VInt 7; VStr "ciao"] false,
             [Call "cs2" [VInt 7; VStr "ciao"]]).
Proof.
  split; [exact (le_n 2)|].
  exact (proj1 (proj2 (proj2 (proj2
           (store_through_reference cs2_guard (VStr "ciao") []
              (le_n 2)))))).
Defined.
End ExtraScenarios.

(** ** Construction and composition of fires *)

Section MoreExtras.
Context {DELETER V : Type}.
Implicit Types (x : scoped_resource DELETER V) (log : trace DELETER V).

(** X14. What [make_scoped_resource(t, r...)] is given can be read back:
    the instance is armed, [get_deleter()] returns [t], [get<i>()] returns
    the [i]-th of [r...] for every [i] below their number and is rejected
    from there on, and [release_all()] returns all of them, in order. *)
Theorem make_scoped_resource_round_trip (t : DELETER) (r : list V) log :
  m_bExecute (make_scoped_resource t r) = true
  /\ get_deleter (make_scoped_resource t r) log
     = Some (t, make_scoped_resource t r, log)
  /\ (forall i,
        get i (make_scoped_resource t r) log
        = if i <? length r
          then option_map (fun v => (v, make_scoped_resource t r, log))
                          (nth_error r i)
          else None)
  /\ release_all (make_scoped_resource t r) log
     = Some (r, ScopedResource t r false, log).
Proof.
  split; [reflexivity|]. split; [reflexivity|]. split; [|reflexivity].
  intros i. rewrite get_eq.
  change (m_resource (make_scoped_resource t r)) with r.
  destruct (Nat.ltb_spec i (length r)) as [Hlt|Hge].
  - now destruct (nth_error r i).
  - apply nth_error_None in Hge. now rewrite Hge.
Qed.

End MoreExtras.

(** * The class under any disposer *)

Section EffectFacts.
Context {DELETER V : Type}.
Context {MoveD : MoveConstructible DELETER} {MoveV : MoveConstructible V}.
Variable behaviour : trace DELETER V -> DELETER -> list V
                     -> Effects.effect DELETER V.
Implicit Types (self x : scoped_resource DELETER V) (log : trace DELETER V).
Implicit Types (d : DELETER) (r : list V) (os : list (@operation V)).

Lemma overwrite_length (old new : list V) :
  length (Effects.overwrite old new) = length old.
Proof.
  revert new; induction old as [|o old IH]; intros [|n new]; cbn;
    try reflexivity. now rewrite IH.
Qed.

Lemma overwrite_same (r : list V) : Effects.overwrite r r = r.
Proof. induction r as [|v r IH]; cbn; [reflexivity | now rewrite IH]. Qed.

Lemma Apply_calls (f : DELETER) (t : tuple V) :
  forall (N : nat) (a : list V) self log,
    N <= length t ->
    Effects.Apply behaviour N f t a self log
    = Effects.call_function behaviour f (firstn N t ++ a) self log.
Proof.
  induction N as [|N IH]; intros a self log HN.
  - reflexivity.
  - cbn [Effects.Apply]. unfold Effects.bind, Effects.lift, std_get.
    destruct (nth_error t N) as [x|] eqn:Hx.
    + unfold ret. rewrite IH by lia.
      now rewrite (firstn_snoc_nth_error _ _ Hx), <- app_assoc.
    + apply nth_error_None in Hx. lia.
Qed.

Lemma apply_call (f : DELETER) (t : tuple V) self log :
  Effects.apply behaviour f t self log
  = Effects.call_function behaviour f t self log.
Proof.
  unfold Effects.apply. rewrite Apply_calls by lia.
  now rewrite firstn_all, app_nil_r.
Qed.

(** [invoke] on an armed instance: one call; the flag is written only if
    the call returns. *)
Lemma invoke_armed strategy x log :
  m_bExecute x = true ->
  Effects.invoke behaviour strategy x log
  = Some (if Effects.call_returns behaviour x log
          then Effects.Returned tt else Effects.Thrown,
          Effects.after_call behaviour x log
            (if Effects.call_returns behaviour x log
             then invoke_it_eq strategy again else true),
          log ++ [Effects.the_call x]).
Proof.
  intros Hb. unfold Effects.invoke, Effects.bind, Effects.lift, this.
  rewrite Hb, apply_call.
  unfold Effects.call_function, Effects.call_returns, Effects.after_call,
    Effects.the_call.
  rewrite Hb.
  destruct (Effects.returns (behaviour log (m_deleter x) (m_resource x)));
    reflexivity.
Qed.

(** [invoke] on a disarmed instance calls nothing. *)
Lemma invoke_disarmed strategy x log :
  m_bExecute x = false ->
  Effects.invoke behaviour strategy x log
  = Some (Effects.Returned tt,
          with_bExecute (invoke_it_eq strategy again) x, log).
Proof.
  intros Hb. unfold Effects.invoke, Effects.bind, Effects.lift, this.
  now rewrite Hb.
Qed.

(** *** One operation *)




(** Operations that neither fire, rebind nor give up ownership are reads
    in either model. *)
Lemma perform_read_any o x log :
  well_formed (length (m_resource x)) o = true ->
  fires o = false -> is_reset o = false -> gives_up o = false ->
  Effects.perform behaviour o x log = Some (Effects.Returned tt, x, log).
Proof.
  intros Hwf Hf Hr Hg.
  assert (E : Effects.perform behaviour o x log
              = Effects.lift (perform o) x log)
    by (destruct o; try reflexivity; discriminate).
  rewrite E. unfold Effects.lift. now rewrite perform_read.
Qed.



Lemma after_call_length x log (b : bool) :
  length (m_resource (Effects.after_call behaviour x log b))
  = length (m_resource x).
Proof. apply overwrite_length. Qed.

Lemma call_returns_always x log :
  Effects.always_returns behaviour ->
  Effects.call_returns behaviour x log = true.
Proof. intros H. apply H. Qed.

(** [reset] of a single-resource binding to one new value. *)
Lemma reset_single (r' : V) x log :
  length (m_resource x) = 1 ->
  Effects.reset behaviour [r'] x log
  = if m_bExecute x
    then Some (if Effects.call_returns behaviour x log
               then Effects.Returned tt else Effects.Thrown,
               if Effects.call_returns behaviour x log
               then ScopedResource
                      (m_deleter (Effects.after_call behaviour x log true))
                      [r'] true
               else Effects.after_call behaviour x log true,
               log ++ [Effects.the_call x])
    else Some (Effects.Returned tt, ScopedResource (m_deleter x) [r'] true,
               log).
Proof.
  intros Hk. unfold Effects.reset. cbn [std_move].
  unfold Effects.bind, Effects.requires_arity, make_tuple. cbn [length].
  rewrite Hk. cbn [Nat.eqb].
  destruct (m_bExecute x) eqn:Hb.
  - rewrite invoke_armed by exact Hb.
    destruct (Effects.call_returns behaviour x log); [|reflexivity].
    unfold Effects.lift, assign_resource. rewrite after_call_length, Hk.
    reflexivity.
  - rewrite invoke_disarmed by exact Hb.
    unfold Effects.lift, assign_resource, with_bExecute.
    cbn [m_resource m_deleter m_bExecute length]. now rewrite Hk.
Qed.

(** *** Sequences of operations *)

Lemma perform_all_step o os x log :
  Effects.perform_all behaviour (o :: os) x log
  = match Effects.perform behaviour o x log with
    | Some (Effects.Returned _, x1, log1) =>
        Effects.perform_all behaviour os x1 log1
    | Some (Effects.Thrown, x1, log1) => Some (Effects.Thrown, x1, log1)
    | None => None
    end.
Proof. reflexivity. Qed.



(** *** The claims and properties that depend on the disposer *)


(** C4 (the defect). [reset] hands its pack to the one-argument
    [std::move], so it is rejected on every binding of no resource and on
    every binding of two or more, whatever values it is given and whatever
    the disposer does; only single-resource bindings can be reset. *)
Theorem reset_rejected_beyond_one_resource d (v w : V) (rest r' : list V)
    (b : bool) log :
  reset r' (ScopedResource d (v :: w :: rest) b) log = None
  /\ reset r' (ScopedResource d [] b) log = None
  /\ Effects.reset behaviour r' (ScopedResource d (v :: w :: rest) b) log
     = None
  /\ Effects.reset behaviour r' (ScopedResource d [] b) log = None.
Proof.
  split; [|split; [|split]].
  - destruct (reset r' (ScopedResource d (v :: w :: rest) b) log) eqn:E;
      [|reflexivity].
    assert (H : reset r' (ScopedResource d (v :: w :: rest) b) log <> None)
      by congruence.
    apply reset_arity in H as [H _]. discriminate H.
  - destruct (reset r' (ScopedResource d [] b) log) eqn:E; [|reflexivity].
    assert (H : reset r' (ScopedResource d [] b) log <> None) by congruence.
    apply reset_arity in H as [H _]. discriminate H.
  - unfold Effects.reset. destruct r' as [|x [|y r']]; reflexivity.
  - unfold Effects.reset. destruct r' as [|x [|y r']]; reflexivity.
Qed.

(** X3. [reset] is accepted exactly on a single-resource binding given one
    new value.  On an armed instance it calls the disposer on the old
    value; if the call returns, the new value is bound, the disposer is
    kept as the call left it and the instance is armed; if the call throws,
    [reset] leaves by the exception with the old binding still in place and
    still armed.  On a disarmed instance it calls nothing, binds the new
    value and arms. *)
Theorem reset_single_resource_only r x log :
  Effects.reset behaviour r x log
  = if (length (m_resource x) =? 1) && (length r =? 1)
    then
      if m_bExecute x
      then Some (if Effects.call_returns behaviour x log
                 then Effects.Returned tt else Effects.Thrown,
                 if Effects.call_returns behaviour x log
                 then ScopedResource
                        (m_deleter (Effects.after_call behaviour x log true))
                        r true
                 else Effects.after_call behaviour x log true,
                 log ++ [Effects.the_call x])
      else Some (Effects.Returned tt, ScopedResource (m_deleter x) r true,
                 log)
    else None.
Proof.
  destruct (Nat.eqb_spec (length (m_resource x)) 1) as [Hk|Hk];
    destruct r as [|v [|w r]]; cbn [length Nat.eqb andb];
    try reflexivity.
  - now apply reset_single.
  - unfold Effects.reset. cbn [std_move].
    unfold Effects.bind, Effects.requires_arity, make_tuple. cbn [length].
    destruct (Nat.eqb_spec 1 (length (m_resource x))); [congruence|reflexivity].
Qed.

(** Successive fires with [again]. *)
Lemma again_snoc : forall (n : nat) x log,
  Effects.again_calls behaviour (S n) x log
  = Effects.again_calls behaviour n x log
    ++ [Effects.the_call (Effects.after_calls behaviour n x log)]
  /\ Effects.after_calls behaviour (S n) x log
     = Effects.after_call behaviour (Effects.after_calls behaviour n x log)
         (log ++ Effects.again_calls behaviour n x log) true.
Proof.
  induction n as [|n IH]; intros x log.
  - cbn. now rewrite app_nil_r.
  - destruct (IH (Effects.after_call behaviour x log true)
                 (log ++ [Effects.the_call x])) as [E1 E2].
    split.
    + change (Effects.again_calls behaviour (S (S n)) x log)
        with (Effects.the_call x
              :: Effects.again_calls behaviour (S n)
                   (Effects.after_call behaviour x log true)
                   (log ++ [Effects.the_call x])).
      now rewrite E1.
    + change (Effects.after_calls behaviour (S (S n)) x log)
        with (Effects.after_calls behaviour (S n)
                (Effects.after_call behaviour x log true)
                (log ++ [Effects.the_call x])).
      rewrite E2. cbn [Effects.again_calls Effects.after_calls].
      now rewrite <- app_assoc.
Qed.

Lemma again_calls_length : forall (n : nat) x log,
  length (Effects.again_calls behaviour n x log) = n.
Proof. induction n as [|n IH]; intros x log; cbn; [|rewrite IH]; reflexivity. Qed.

Lemma after_calls_armed : forall (n : nat) x log,
  m_bExecute x = true ->
  m_bExecute (Effects.after_calls behaviour n x log) = true.
Proof.
  induction n as [|n IH]; intros x log Hb; cbn; [exact Hb | now apply IH].
Qed.

Lemma again_calls_unchanged :
  Effects.leaves_callee behaviour -> Effects.leaves_actuals behaviour ->
  forall (n : nat) x log,
    m_bExecute x = true ->
    Effects.again_calls behaviour n x log = repeat (Effects.the_call x) n.
Proof.
  intros Hc Ha. induction n as [|n IH]; intros x log Hb; [reflexivity|].
  cbn [Effects.again_calls repeat]. f_equal.
  assert (E : Effects.after_call behaviour x log true = x).
  { unfold Effects.after_call. rewrite Hc, Ha, overwrite_same.
    destruct x as [d r b]. cbn in *. now subst b. }
  rewrite E. now apply IH.
Qed.

Lemma perform_all_again :
  Effects.always_returns behaviour ->
  forall (n : nat) x log,
    m_bExecute x = true ->
    Effects.perform_all behaviour (repeat (Invoke again) n) x log
    = Some (Effects.Returned tt, Effects.after_calls behaviour n x log,
            log ++ Effects.again_calls behaviour n x log).
Proof.
  intros Hret. induction n as [|n IH]; intros x log Hb.
  - cbn. now rewrite app_nil_r.
  - cbn [repeat]. rewrite perform_all_step. cbn [Effects.perform].
    rewrite invoke_armed by exact Hb.
    rewrite call_returns_always by exact Hret. cbn [invoke_it_eq].
    rewrite IH by reflexivity.
    cbn [Effects.again_calls Effects.after_calls]. now rewrite <- app_assoc.
Qed.

(** X5. With a disposer that returns, each [invoke(again)] on an armed
    instance calls the disposer and leaves the instance armed: [n] of them
    followed by the end of the scope make [n + 1] calls, each on the
    resources as the call before left them; they are [n + 1] calls on the
    bound values if the disposer leaves callable and arguments alone. *)
Theorem fire_again_repeats x (n : nat) log :
  Effects.always_returns behaviour ->
  m_bExecute x = true ->
  Effects.lifetime behaviour (repeat (Invoke again) n) x log
  = Some (Effects.Returned tt,
          with_bExecute false (Effects.after_calls behaviour (S n) x log),
          log ++ Effects.again_calls behaviour (S n) x log)
  /\ length (Effects.again_calls behaviour (S n) x log) = S n
  /\ (Effects.leaves_callee behaviour ->
      Effects.leaves_actuals behaviour ->
      Effects.again_calls behaviour (S n) x log
      = repeat (Effects.the_call x) (S n)).
Proof.
  intros Hret Hb. split; [|split].
  - unfold Effects.lifetime. rewrite perform_all_again by assumption.
    unfold Effects.destructor.
    rewrite invoke_armed by now apply after_calls_armed.
    rewrite call_returns_always by exact Hret. cbn [invoke_it_eq].
    destruct (again_snoc n x log) as [-> ->].
    now rewrite <- app_assoc.
  - apply again_calls_length.
  - intros Hc Ha. now apply again_calls_unchanged.
Qed.


(** One operation other than a move-out keeps the arity, and the disposer
    too if its calls leave it alone. *)
Lemma perform_keeps o x log :
  well_formed (length (m_resource x)) o = true ->
  is_move_out o = false ->
  exists res x1 calls,
    Effects.perform behaviour o x log = Some (res, x1, log ++ calls)
    /\ length (m_resource x1) = length (m_resource x)
    /\ (Effects.always_returns behaviour -> res = Effects.Returned tt)
    /\ (Effects.leaves_callee behaviour ->
        m_deleter x1 = m_deleter x
        /\ Forall (fun c => callee c = m_deleter x) calls).
Proof.
  assert (Hread : exists res x1 calls,
    Some (Effects.Returned tt, x, log) = Some (res, x1, log ++ calls)
    /\ length (m_resource x1) = length (m_resource x)
    /\ (Effects.always_returns behaviour -> res = Effects.Returned tt)
    /\ (Effects.leaves_callee behaviour ->
        m_deleter x1 = m_deleter x
        /\ Forall (fun c => callee c = m_deleter x) calls)).
  { exists (Effects.Returned tt), x, []. rewrite app_nil_r.
    split; [reflexivity|]. split; [reflexivity|]. split; [reflexivity|].
    intros _. split; [reflexivity | constructor]. }
  assert (Hoff : exists res x1 calls,
    Some (Effects.Returned tt, with_bExecute false x, log)
    = Some (res, x1, log ++ calls)
    /\ length (m_resource x1) = length (m_resource x)
    /\ (Effects.always_returns behaviour -> res = Effects.Returned tt)
    /\ (Effects.leaves_callee behaviour ->
        m_deleter x1 = m_deleter x
        /\ Forall (fun c => callee c = m_deleter x) calls)).
  { exists (Effects.Returned tt), (with_bExecute false x), [].
    rewrite app_nil_r.
    split; [reflexivity|]. split; [reflexivity|]. split; [reflexivity|].
    intros _. split; [reflexivity | constructor]. }
  assert (Hinv : forall strategy, exists res x1 calls,
    Effects.invoke behaviour strategy x log = Some (res, x1, log ++ calls)
    /\ length (m_resource x1) = length (m_resource x)
    /\ (Effects.always_returns behaviour -> res = Effects.Returned tt)
    /\ (Effects.leaves_callee behaviour ->
        m_deleter x1 = m_deleter x
        /\ Forall (fun c => callee c = m_deleter x) calls)).
  { intros strategy. destruct (m_bExecute x) eqn:Hb.
    - rewrite invoke_armed by exact Hb. eexists _, _, [_].
      split; [reflexivity|]. split; [apply after_call_length|]. split.
      + intros Hret. now rewrite call_returns_always.
      + intros Hc. split; [apply Hc|].
        constructor; [reflexivity | constructor].
    - rewrite invoke_disarmed by exact Hb. eexists _, _, [].
      rewrite app_nil_r. split; [reflexivity|]. split; [reflexivity|].
      split; [reflexivity|]. intros _. split; [reflexivity | constructor]. }
  intros Hwf Hm.
  destruct o; cbn [well_formed is_move_out] in Hwf, Hm; try discriminate.
  - apply Hinv.
  - apply Hinv.
  - cbn [Effects.perform perform]. unfold Effects.lift.
    rewrite discard_eq, release_eq. exact Hoff.
  - cbn [Effects.perform perform]. unfold Effects.lift.
    rewrite discard_eq, release_all_eq. exact Hoff.
  - apply andb_prop in Hwf as [Hk Hr]. apply Nat.eqb_eq in Hk, Hr.
    destruct resource as [|r' [|? ?]]; try discriminate Hr.
    cbn [Effects.perform]. rewrite reset_single by exact Hk.
    destruct (m_bExecute x) eqn:Hb.
    + eexists _, _, [_]. split; [reflexivity|]. split.
      * destruct (Effects.call_returns behaviour x log);
          [now rewrite Hk | apply after_call_length].
      * split; [intros Hret; now rewrite call_returns_always|].
        intros Hc. split.
        -- destruct (Effects.call_returns behaviour x log); apply Hc.
        -- constructor; [reflexivity | constructor].
    + eexists _, _, []. rewrite app_nil_r. split; [reflexivity|].
      split; [now rewrite Hk|]. split; [reflexivity|].
      intros _. split; [reflexivity | constructor].
  - rewrite perform_read_any by (assumption || reflexivity). exact Hread.
  - rewrite perform_read_any by (assumption || reflexivity). exact Hread.
  - rewrite perform_read_any by (assumption || reflexivity). exact Hread.
  - rewrite perform_read_any by (assumption || reflexivity). exact Hread.
Qed.

(** X8. As long as the instance is not moved from, every accepted sequence
    of operations keeps the arity of the binding and leaves earlier calls
    in the log; it runs to its end if the disposer returns whenever called;
    and if the disposer's calls leave the callable as it was, the stored
    disposer stays the one given at construction ([reset] replaces the
    resource, never the disposer) and every call made is a call of it. *)
Theorem disposer_is_never_replaced os : forall x log,
  forallb (well_formed (length (m_resource x))) os = true ->
  forallb stays_in_place os = true ->
  exists res x' calls,
    Effects.perform_all behaviour os x log = Some (res, x', log ++ calls)
    /\ length (m_resource x') = length (m_resource x)
    /\ (Effects.always_returns behaviour -> res = Effects.Returned tt)
    /\ (Effects.leaves_callee behaviour ->
        m_deleter x' = m_deleter x
        /\ Forall (fun c => callee c = m_deleter x) calls).
Proof.
  induction os as [|o os IH]; intros x log Hwf Hm.
  - exists (Effects.Returned tt), x, []. rewrite app_nil_r.
    split; [reflexivity|]. split; [reflexivity|]. split; [reflexivity|].
    intros _. split; [reflexivity | constructor].
  - cbn [forallb] in Hwf, Hm.
    apply andb_prop in Hwf as [Hwf Hwfs], Hm as [Hm Hms].
    apply negb_true_iff in Hm. rewrite perform_all_step.
    destruct (perform_keeps o x log Hwf Hm)
      as (res1 & x1 & c1 & -> & Hl1 & Hr1 & Hc1).
    destruct res1 as [[]|].
    + rewrite <- Hl1 in Hwfs.
      destruct (IH x1 (log ++ c1) Hwfs Hms)
        as (res2 & x2 & c2 & -> & Hl2 & Hr2 & Hc2).
      exists res2, x2, (c1 ++ c2). rewrite app_assoc.
      split; [reflexivity|]. split; [congruence|]. split; [exact Hr2|].
      intros Hc. destruct (Hc1 Hc) as [D1 F1]. destruct (Hc2 Hc) as [D2 F2].
      split; [congruence|]. apply Forall_app. split; [exact F1|].
      rewrite D1 in F2. exact F2.
    + exists Effects.Thrown, x1, c1. split; [reflexivity|].
      split; [exact Hl1|]. split; [exact Hr1 | exact Hc1].
Qed.

(** X15. Whether the next fire calls the disposer is decided by how the
    fire before it ended: after a fire that returned the instance is armed
    exactly when its strategy was [again]; after a fire that left by an
    exception it is still armed, whatever the strategy, so that the next
    fire calls the disposer again.  A fire leaves by an exception exactly
    when the instance was armed and the call of the disposer threw. *)
Theorem completion_decides_next_fire (first next : invoke_it) x log :
  exists res x1,
    Effects.invoke behaviour first x log = Some (res, x1, fired x log)
    /\ m_bExecute x1
       = match res with
         | Effects.Returned _ => invoke_it_eq first again
         | Effects.Thrown => true
         end
    /\ res = (if m_bExecute x && negb (Effects.call_returns behaviour x log)
              then Effects.Thrown else Effects.Returned tt)
    /\ exists res2 x2,
         Effects.invoke behaviour next x1 (fired x log)
         = Some (res2, x2, fired x1 (fired x log)).
Proof.
  assert (Hnext : forall x1 log1, exists res2 x2,
    Effects.invoke behaviour next x1 log1 = Some (res2, x2, fired x1 log1)).
  { intros x1 log1. unfold fired. destruct (m_bExecute x1) eqn:Hb1.
    - rewrite invoke_armed by exact Hb1. now eexists _, _.
    - rewrite invoke_disarmed by exact Hb1. now eexists _, _. }
  destruct (m_bExecute x) eqn:Hb.
  - replace (fired x log) with (log ++ [Effects.the_call x])
      by (unfold fired; now rewrite Hb).
    rewrite invoke_armed by exact Hb. cbn [andb].
    destruct (Effects.call_returns behaviour x log); cbn [negb];
      eexists _, _; (split; [reflexivity|]); (split; [reflexivity|]);
      (split; [reflexivity|]); apply Hnext.
  - rewrite (fired_disarmed _ _ Hb).
    rewrite invoke_disarmed by exact Hb. cbn [andb].
    eexists _, _. split; [reflexivity|]. split; [reflexivity|].
    split; [reflexivity|]. apply Hnext.
Qed.
End EffectFacts.

(** ** The first model is the class under the plain disposer *)

Section PlainDisposer.
Context {DELETER V : Type}.
Context {MoveD : MoveConstructible DELETER} {MoveV : MoveConstructible V}.
Implicit Types (x : scoped_resource DELETER V) (log : trace DELETER V).

Lemma invoke_plain strategy x log :
  Effects.invoke Effects.plain strategy x log
  = Effects.lift (invoke strategy) x log.
Proof.
  unfold Effects.lift. rewrite invoke_eq. unfold fired.
  destruct (m_bExecute x) eqn:Hb.
  - rewrite invoke_armed by exact Hb.
    unfold Effects.call_returns, Effects.after_call, Effects.plain.
    cbn [Effects.returns Effects.callee_after Effects.actuals_after].
    now rewrite overwrite_same.
  - now rewrite invoke_disarmed.
Qed.

Lemma perform_plain o x log :
  Effects.perform Effects.plain o x log = Effects.lift (perform o) x log.
Proof.
  destruct o; try reflexivity.
  - apply invoke_plain.
  - apply invoke_plain.
  - cbn [Effects.perform perform].
    destruct resource as [|v [|w rest]].
    + unfold Effects.reset, Effects.lift, reset, bind.
      now rewrite invoke_eq.
    + destruct (Nat.eqb_spec (length (m_resource x)) 1) as [Hk|Hk].
      * rewrite reset_single by exact Hk. unfold Effects.lift.
        rewrite reset_eq by exact Hk. unfold fired.
        destruct (m_bExecute x); reflexivity.
      * unfold Effects.reset, Effects.lift, reset, bind. rewrite invoke_eq.
        cbn [std_move]. unfold Effects.bind, Effects.requires_arity,
          assign_resource, make_tuple, with_bExecute.
        cbn [m_resource length].
        destruct (Nat.eqb_spec 1 (length (m_resource x)));
          [congruence | reflexivity].
    + unfold Effects.reset, Effects.lift, reset, bind.
      now rewrite invoke_eq.
Qed.

Lemma perform_all_plain os : forall x log,
  Effects.perform_all Effects.plain os x log
  = Effects.lift (perform_all os) x log.
Proof.
  induction os as [|o os IH]; intros x log; [reflexivity|].
  rewrite perform_all_step, perform_plain. unfold Effects.lift at 1 2.
  rewrite perform_all_cons.
  destruct (perform o x log) as [[[u x1] log1]|]; [|reflexivity].
  apply IH.
Qed.

(** Under the plain disposer the lifetime of an instance is the one of the
    first model. *)
Lemma lifetime_plain os x log :
  Effects.lifetime Effects.plain os x log = Effects.lift (lifetime os) x log.
Proof.
  unfold Effects.lifetime. rewrite perform_all_plain.
  unfold Effects.lift at 1 2. unfold lifetime, bind.
  destruct (perform_all os x log) as [[[u x1] log1]|]; [|reflexivity].
  apply invoke_plain.
Qed.
End PlainDisposer.

(** ** Disposers that throw or write, on concrete bindings *)

Section EffectScenarios.
Import Demo.
Open Scope string_scope.
Open Scope Z_scope.


(** Two early fires with [again], then the scope end, with the
    incrementing disposer: three calls, on 3, 4 and 5. *)
Lemma fire_again_repeats_witness :
  Effects.always_returns Effects.bump
  /\ m_bExecute (fd_guard 3 true) = true
  /\ Effects.lifetime Effects.bump [Invoke again; Invoke again]
       (fd_guard 3 true) []
     = Some (Effects.Returned tt, ScopedResource "close" [VInt 6] false,
             [Call "close" [VInt 3]; Call "close" [VInt 4];
              Call "close" [VInt 5]]).
Proof.
  refine (conj (fun _ _ _ => eq_refl) (conj eq_refl _)).
  exact (proj1 (fire_again_repeats (behaviour:=Effects.bump) (fd_guard 3 true) 2 []
                  (fun _ _ _ => eq_refl) eq_refl)).
Defined.


(** A read, a fire that throws: the rest is skipped, the arity is kept. *)
Lemma disposer_is_never_replaced_witness :
  forallb (well_formed (length (m_resource (fd_guard 3 true))))
          [@Get value 0%nat; Invoke again; Reset [VInt 9]; Release] = true
  /\ forallb stays_in_place
             [@Get value 0%nat; Invoke again; Reset [VInt 9]; Release] = true
  /\ exists res x' calls,
       Effects.perform_all Effects.throwing
         [@Get value 0%nat; Invoke again; Reset [VInt 9]; Release]
         (fd_guard 3 true) []
       = Some (res, x', calls)
       /\ length (m_resource x') = 1%nat
       /\ (Effects.always_returns (@Effects.throwing deleter value) ->
           res = Effects.Returned tt)
       /\ (Effects.leaves_callee (@Effects.throwing deleter value) ->
           m_deleter x' = "close"
           /\ Forall (fun c => callee c = "close") calls).
Proof.
  refine (conj eq_refl (conj eq_refl _)).
  exact (disposer_is_never_replaced Effects.throwing
           [@Get value 0%nat; Invoke again; Reset [VInt 9]; Release]
           (fd_guard 3 true) [] eq_refl eq_refl).
Defined.

(** *** What the code does with a disposer that throws *)

(** [fire(once)] with a throwing disposer leaves the guard armed: the
    destructor calls the disposer a second time. *)
Example throwing_fire_once_fires_twice :
  Effects.lifetime Effects.throwing [Invoke once] (fd_guard 5 true) []
  = Some (Effects.Thrown, fd_guard 5 true,
          [Call "close" [VInt 5]; Call "close" [VInt 5]]).
Proof. reflexivity. Qed.

(** [reset] with a throwing disposer leaves the old binding in place. *)
Example throwing_reset_keeps_binding :
  Effects.reset Effects.throwing [VInt 9] (fd_guard 5 true) []
  = Some (Effects.Thrown, fd_guard 5 true, [Call "close" [VInt 5]]).
Proof. reflexivity. Qed.

(** [reset] on the two-resource and on the zero-resource binding. *)
Example reset_of_two_resources_rejected :
  Effects.reset Effects.plain [VInt 8; VStr "ciao"] cs2_guard [] = None
  /\ reset [VInt 8; VStr "ciao"] cs2_guard [] = None.
Proof. split; reflexivity. Qed.
End EffectScenarios.
